(** * FDD-book: the driver skeletons of chapters 2 and 4

    Part I embeds the C sources (the [hello_world] module event handler, the
    [mydriver] probe/attach/detach skeleton and the [driver_sim] register
    simulation) as state-passing functions over the trace of the calls they
    make into the kernel or the C library.

    Part II models the resource ledger, the device state machine and the
    module registrar of the specification, which the sources describe in
    comments only, and proves their rollback, release-order, pairing and
    unload properties.

    Part III proves the properties of the C sources themselves, Part IV
    further properties of the same files and of the other demos of
    chapter 4 ([linkage_demo], [null_terminator]). *)

From Stdlib Require Import ZArith Lia Ascii.
From stdpp Require Import gmap strings list fin_maps pretty.

Local Open Scope Z_scope.

(** * Part I: the C sources *)

(** ** Calls into the kernel as explicit state *)

(** Opaque kernel handles (pointers in C). *)
Definition module_t := Z.
Definition device_t := Z.
Definition void_ptr := Z.

Module Kernel.

(** The calls a routine can make: the two print functions the sources use,
    and the two resource functions their comments name
    ([bus_alloc_resource_any], [bus_release_resource]), with the device,
    the resource type and the resource id. *)
Inductive call : Type :=
| Printf (s : string)
| DevicePrintf (dev : device_t) (s : string)
| BusAllocResource (dev : device_t) (ty rid : Z)
| BusReleaseResource (dev : device_t) (ty rid : Z).

Definition trace : Type := list call.

(** A computation takes the calls made so far and returns its value with
    the extended trace. *)
Definition IO (A : Type) : Type := trace -> A * trace.

Definition ret {A} (a : A) : IO A := fun tr => (a, tr).

Definition bind {A B} (c : IO A) (k : A -> IO B) : IO B :=
  fun tr => let (a, tr') := c tr in k a tr'.

Definition value {A} (r : A * trace) : A := fst r.
Definition output {A} (r : A * trace) : trace := snd r.

(** The calls of [tr'] that come after those of [tr]. *)
Definition calls_since (tr tr' : trace) : list call := drop (length tr) tr'.

(** Line feed, the C escape [\n]. *)
Definition nl : string := String "010"%char EmptyString.

(** [printf] with an already formatted line. *)
Definition printf (s : string) : IO unit :=
  fun tr => (tt, tr ++ [Printf s]).

(** [device_printf] of the kernel, likewise. *)
Definition device_printf (dev : device_t) (s : string) : IO unit :=
  fun tr => (tt, tr ++ [DevicePrintf dev s]).

End Kernel.
Import Kernel.

Declare Scope io_scope.
Delimit Scope io_scope with io.
Notation "x <- c ;; k" := (bind c (fun x => k))
  (at level 100, c at next level, right associativity) : io_scope.
Notation "c ;; k" := (bind c (fun _ => k))
  (at level 100, right associativity) : io_scope.

(** ** Names taken from the system headers *)

(** [sys/module.h], [sys/errno.h] and [sys/bus.h] are not part of the
    sources; the constants the code names are parameters.  The two [case]
    labels of a C [switch] are distinct or the file does not compile. *)
Class SysHeaders : Type := {
  MOD_LOAD : Z;
  MOD_UNLOAD : Z;
  EOPNOTSUPP : Z;
  BUS_PROBE_DEFAULT : Z;
  mod_cases_distinct : MOD_LOAD <> MOD_UNLOAD
}.

(** The values FreeBSD gives them. *)
Definition freebsd_headers : SysHeaders := {|
  MOD_LOAD := 0;
  MOD_UNLOAD := 1;
  EOPNOTSUPP := 45;
  BUS_PROBE_DEFAULT := -20;
  mod_cases_distinct := ltac:(discriminate)
|}.

(** ** chapters/2/hello_world/hello_world.c *)
Module HelloWorld.
Section WithHeaders.
Context `{SysHeaders}.

Definition hello_world_load (mod_ : module_t) (cmd : Z) (arg : void_ptr)
  : IO Z :=
  (let error := 0 in
   if cmd =? MOD_LOAD then
     printf ("Hello World! Kernel module loaded." +:+ nl) ;;
     ret error
   else if cmd =? MOD_UNLOAD then
     printf ("Goodbye World! Kernel module unloaded." +:+ nl) ;;
     ret error
   else
     let error := EOPNOTSUPP in
     ret error)%io.

End WithHeaders.
End HelloWorld.

(** ** chapters/4/mydriver/mydriver.c *)
Module MyDriver.

Section WithHeaders.
Context `{SysHeaders}.

Definition mydriver_probe (dev : device_t) : IO Z :=
  (device_printf dev ("Probing device..." +:+ nl) ;;
   ret BUS_PROBE_DEFAULT)%io.

End WithHeaders.

Definition mydriver_attach (dev : device_t) : IO Z :=
  (device_printf dev ("Attaching device and initializing resources..." +:+ nl) ;;
   ret 0)%io.

Definition mydriver_detach (dev : device_t) : IO Z :=
  (device_printf dev ("Detaching device and cleaning up..." +:+ nl) ;;
   ret 0)%io.

End MyDriver.

(** ** The resources a device holds, read off the trace *)
Module Held.

(** A bus resource: its type and its id. *)
Definition resource : Type := Z * Z.

Definition same_resource (a b : resource) : bool :=
  (fst a =? fst b) && (snd a =? snd b).

(** The resources the calls allocate for [dev], in order. *)
Definition acquired (dev : device_t) (calls : list call) : list resource :=
  flat_map (fun c => match c with
                     | BusAllocResource d ty rid =>
                         if d =? dev then [(ty, rid)] else []
                     | _ => []
                     end) calls.

(** The resources the calls release for [dev], in order. *)
Definition released (dev : device_t) (calls : list call) : list resource :=
  flat_map (fun c => match c with
                     | BusReleaseResource d ty rid =>
                         if d =? dev then [(ty, rid)] else []
                     | _ => []
                     end) calls.

(** The effect of one call on what [dev] holds. *)
Definition ledger_step (dev : device_t) (held : list resource) (c : call)
  : list resource :=
  match c with
  | BusAllocResource d ty rid =>
      if d =? dev then held ++ [(ty, rid)] else held
  | BusReleaseResource d ty rid =>
      if d =? dev
      then List.filter (fun r => negb (same_resource r (ty, rid))) held
      else held
  | Printf _ | DevicePrintf _ _ => held
  end.

(** Modelled from the spec: the ResourceLedger of a device, the ordered
    record of the resources it currently holds (glossary); the sources keep
    no such record, so it is computed from the calls made so far. *)
Definition ledger_of (dev : device_t) (tr : trace) : list resource :=
  fold_left (ledger_step dev) tr [].

End Held.

(** ** chapters/4/driver_sim/driver_sim.c *)
Module DriverSim.

(** [unsigned int] is 32 bits wide; arithmetic on it wraps. *)
Definition UINT_BITS : Z := 32.
Definition uint_wrap (z : Z) : Z := z mod 2 ^ UINT_BITS.

(** The [%X] conversion: upper-case hexadecimal, no leading zeros. *)
Definition hex_digit (d : Z) : ascii :=
  match d with
  | 0 => "0" | 1 => "1" | 2 => "2" | 3 => "3" | 4 => "4" | 5 => "5"
  | 6 => "6" | 7 => "7" | 8 => "8" | 9 => "9" | 10 => "A" | 11 => "B"
  | 12 => "C" | 13 => "D" | 14 => "E" | _ => "F"
  end%char.

Fixpoint hex_digits (fuel : nat) (n : Z) (acc : string) : string :=
  match fuel with
  | O => acc
  | S fuel' =>
      let acc' := String (hex_digit (n mod 16)) acc in
      if n / 16 =? 0 then acc' else hex_digits fuel' (n / 16) acc'
  end.

(** Eight digits cover every 32-bit value. *)
Definition fmt_X (n : Z) : string := hex_digits 8 n EmptyString.

Definition read_register (address : Z) : IO Z :=
  (let value := uint_wrap (address * 2) in
   printf ("[driver] Reading register at address 0x" +:+ fmt_X address
           +:+ "..." +:+ nl) ;;
   ret value)%io.

Definition main : IO Z :=
  (let reg_addr := 16 (* 0x10 *) in
   data <- read_register reg_addr ;;
   printf ("[driver] Value read: 0x" +:+ fmt_X data +:+ nl) ;;
   ret 0)%io.

End DriverSim.

(** ** Reading back what [%X] printed *)
Module HexRead.

(** The value of a hexadecimal digit, upper case; 0 for any other
    character. *)
Definition hex_digit_value (c : ascii) : Z :=
  match c with
  | "0" => 0 | "1" => 1 | "2" => 2 | "3" => 3 | "4" => 4 | "5" => 5
  | "6" => 6 | "7" => 7 | "8" => 8 | "9" => 9 | "A" => 10 | "B" => 11
  | "C" => 12 | "D" => 13 | "E" => 14 | "F" => 15 | _ => 0
  end%char.

(** The number a string of hexadecimal digits denotes, most significant
    digit first, continuing from [v]. *)
Fixpoint hex_value_from (v : Z) (s : string) : Z :=
  match s with
  | EmptyString => v
  | String c s' => hex_value_from (v * 16 + hex_digit_value c) s'
  end.

Definition hex_value (s : string) : Z := hex_value_from 0 s.

End HexRead.

(** ** chapters/4/linkage_demo/foo.c and main.c *)
Module LinkageDemo.

(** [int] is 32 bits wide; an addition that leaves its range has no
    defined result. *)
Definition INT_MIN : Z := - 2 ^ 31.
Definition INT_MAX : Z := 2 ^ 31 - 1.

Definition int_add (a b : Z) : option Z :=
  let sum := a + b in
  if (INT_MIN <=? sum) && (sum <=? INT_MAX) then Some sum else None.

(** The two file-scope variables of foo.c. *)
Record globals : Type := mkGlobals {
  shared_counter : Z;
  internal_flag : Z
}.

(** Their initializers. *)
Definition initial_globals : globals := mkGlobals 0 1.

(** The line [printf("Counter: %d\n", ...)] writes. *)
Definition counter_line (c : Z) : call :=
  Printf ("Counter: " +:+ pretty c +:+ nl).

(** [increment] of foo.c; [None] when the addition overflows. *)
Definition increment (g : globals) : IO (option globals) :=
  let step := 1 in
  match (if internal_flag g =? 0 then Some (shared_counter g)
         else int_add (shared_counter g) step) with
  | Some c =>
      (printf ("Counter: " +:+ pretty c +:+ nl) ;;
       ret (Some (mkGlobals c (internal_flag g))))%io
  | None => ret None
  end.

(** [main] of main.c, from the globals [g] the program starts with
    ([initial_globals]); it sees [shared_counter] only. *)
Definition main (g : globals) : IO (option (Z * globals)) :=
  (r1 <- increment g ;;
   match r1 with
   | None => ret None
   | Some g1 =>
       match int_add (shared_counter g1) 10 with
       | None => ret None
       | Some c =>
           r2 <- increment (mkGlobals c (internal_flag g1)) ;;
           match r2 with
           | None => ret None
           | Some g2 => ret (Some (0, g2))
           end
       end
   end)%io.

(** [n] calls of [increment] in a row. *)
Fixpoint increment_times (n : nat) (g : globals) : IO (option globals) :=
  match n with
  | O => ret (Some g)
  | S n' =>
      (r <- increment g ;;
       match r with
       | None => ret None
       | Some g' => increment_times n' g'
       end)%io
  end.

End LinkageDemo.

(** ** chapters/4/null_terminator/null_terminator.c *)
Module NullTerminator.

Definition NUL : ascii := "000"%char.

(** What [%s] reads from a [char] array: the characters before the first
    NUL; [None] when the array holds no NUL, since the read then runs past
    its end. *)
Fixpoint read_string (a : list ascii) : option (list ascii) :=
  match a with
  | [] => None
  | c :: rest =>
      if Ascii.eqb c NUL then Some []
      else match read_string rest with
           | Some s => Some (c :: s)
           | None => None
           end
  end.

(** [printf(before "%s" after, a)]. *)
Definition printf_s (before : string) (a : list ascii) (after : string)
    (tr : trace) : option (unit * trace) :=
  match read_string a with
  | Some s =>
      Some (printf (before +:+ String.string_of_list_ascii s +:+ after) tr)
  | None => None
  end.

Definition broken : list ascii := ["B"; "S"; "D"; "!"; "X"]%char.
Definition fixed : list ascii := ["B"; "S"; "D"; "!"; "X"; NUL]%char.

(** [main]; [None] is undefined behaviour. *)
Definition main (tr : trace) : option (Z * trace) :=
  let garbage := repeat "Z"%char 100 in
  match printf_s "Broken string: " broken nl tr with
  | None => None
  | Some (_, tr1) =>
      match printf_s "Fixed string: " fixed nl tr1 with
      | None => None
      | Some (_, tr2) => Some (0, tr2)
      end
  end.

End NullTerminator.

(** * Part II: the lifecycle core of the specification

    The skeleton leaves resource acquisition, rollback and release to
    comments, and the module handler knows nothing of devices.  The
    definitions of this part are written from sections 3 and 4 of the
    specification. *)
Module Core.

(** Modelled from the spec: the tag of a Resource (section 3), absent
    from the sources. *)
Inductive ResourceKind : Type :=
| MemoryMap | InterruptHandler | Timer | ChildDevice.

(** Modelled from the spec: the four lifecycle states of a Device
    (section 4.2), absent from the sources. *)
Inductive State : Type := Unprobed | Probed | Attached | Detached.

(** Modelled from the spec: the status of a Module (section 3), absent
    from the sources. *)
Inductive Status : Type := Unloaded | Loaded.

(** Modelled from the spec: the tagged events of [dispatch] (sections 4.1
    and 9); every kind outside Load and Unload is an [OtherEvent]. *)
Inductive Event : Type := Load | Unload | OtherEvent (tag : Z).

Section Engine.
(** [HW] is the state of the hardware resource collaborator, [E] the type
    of the errors the collaborators report (section 6). *)
Context {HW : Type} {E : Type}.

(** Modelled from the spec: the error kinds of section 7.  [External]
    carries a collaborator's error returned untouched (4.1, 4.3);
    [InvalidTransition] answers an event that the table of 4.2 does not
    list for the current state, for which the spec names no kind. *)
Inductive Error : Type :=
| DuplicateName | UnknownModule | UnsupportedEvent | ModuleBusy
| NotSupported | DuplicateIdentity | StillAttached
| AcquisitionFailed (k : ResourceKind)
| DetachRefused (reason : E)
| ReleaseFailed (reason : E)
| External (e : E)
| InvalidTransition.

(** Modelled from the spec: the Result of the core's operations. *)
Inductive result (A : Type) : Type :=
| Ok (a : A)
| Err (e : Error).

(** Modelled from the spec: a release token, an opaque fallible operation
    of the hardware collaborator; [Some e] is a hard failure. *)
Definition ReleaseToken : Type := HW -> option E * HW.

(** Modelled from the spec: a Resource record (section 3): kind, release
    token, acquisition order index. *)
Record Resource : Type := mkResource {
  kind : ResourceKind;
  release : ReleaseToken;
  order : nat
}.

(** Modelled from the spec: [acquireFn], the collaborator's fallible
    acquisition, which hands back the release token. *)
Definition AcquireFn : Type := HW -> (E + ReleaseToken) * HW.

(** Modelled from the spec: the ResourceLedger, in acquisition order
    (first acquired first). *)
Definition Ledger : Type := list Resource.

(** Modelled from the spec: [acquire] of section 4.3: call [acquireFn];
    on success append a Resource with the next order index, on failure
    return the error untouched and append nothing. *)
Definition acquire (k : ResourceKind) (acquireFn : AcquireFn)
    (l : Ledger) (hw : HW) : (E + Resource) * Ledger * HW :=
  match acquireFn hw with
  | (inr tok, hw') =>
      let r := mkResource k tok (length l) in (inr r, l ++ [r], hw')
  | (inl e, hw') => (inl e, l, hw')
  end.

(** Modelled from the spec: the walk of [releaseAll], on the entries
    listed last-acquired first: call each token, stop at the first hard
    failure and keep the failed entry and those not yet visited. *)
Fixpoint release_walk (visit : list Resource) (hw : HW)
    : option E * list Resource * HW :=
  match visit with
  | [] => (None, [], hw)
  | r :: earlier =>
      match release r hw with
      | (None, hw') => release_walk earlier hw'
      | (Some e, hw') => (Some e, r :: earlier, hw')
      end
  end.

(** Modelled from the spec: [releaseAll] of section 4.3; the result is
    the first hard failure if any, and the ledger that remains. *)
Definition releaseAll (l : Ledger) (hw : HW) : option E * Ledger * HW :=
  match release_walk (rev l) hw with
  | (failure, kept, hw') => (failure, rev kept, hw')
  end.

(** Modelled from the spec: the release of Attach's rollback (4.2: all
    resources acquired so far are released in reverse order): every token
    is called, last-acquired first; the spec gives the rollback no failure
    path, so a token's report is dropped. *)
Fixpoint release_each (visit : list Resource) (hw : HW) : HW :=
  match visit with
  | [] => hw
  | r :: earlier => release_each earlier (snd (release r hw))
  end.

(** Modelled from the spec: a Device (section 3): identity, lifecycle
    state and ledger. *)
Record Device : Type := mkDevice {
  identity : Z;
  state : State;
  ledger : Ledger
}.

(** Modelled from the spec: the acquisitions of Attach, in the fixed
    declared order [p]; the answer is the kind whose acquisition failed, if
    one did. *)
Fixpoint acquire_plan (p : list (ResourceKind * AcquireFn)) (l : Ledger)
    (hw : HW) : option ResourceKind * Ledger * HW :=
  match p with
  | [] => (None, l, hw)
  | (k, f) :: p' =>
      match acquire k f l hw with
      | (inr _, l', hw') => acquire_plan p' l' hw'
      | (inl _, l', hw') => (Some k, l', hw')
      end
  end.

(** Modelled from the spec: the Attach row of 4.2, for a driver that
    declares the acquisitions [plan]: all-or-nothing. *)
Definition attach (plan : list (ResourceKind * AcquireFn)) (d : Device)
    (hw : HW) : result unit * Device * HW :=
  match state d with
  | Probed =>
      match acquire_plan plan (ledger d) hw with
      | (None, l, hw') => (Ok unit tt, mkDevice (identity d) Attached l, hw')
      | (Some k, l, hw') =>
          (Err unit (AcquisitionFailed k),
           mkDevice (identity d) Unprobed [],
           release_each (rev l) hw')
      end
  | _ => (Err unit InvalidTransition, d, hw)
  end.

(** Modelled from the spec: "released, in this order": the release tokens
    of [visit] are called one after the other, from hardware state [hw]
    to [hw'], and each reports success. *)
Inductive released_in_order : list Resource -> HW -> HW -> Prop :=
| released_none (hw : HW) : released_in_order [] hw hw
| released_next (r : Resource) (rest : list Resource) (hw hw' hw'' : HW) :
    release r hw = (None, hw') ->
    released_in_order rest hw' hw'' ->
    released_in_order (r :: rest) hw hw''.

(** Modelled from the spec: "acquired in the declared order": the steps
    of [p] are acquired one after the other, from hardware state [hw] to
    [hw'], each with success; [rs] lists the resulting records, whose
    order indices start at [n]. *)
Inductive acquired_in_order
    : list (ResourceKind * AcquireFn) -> nat -> HW -> list Resource -> HW
      -> Prop :=
| acquired_none (n : nat) (hw : HW) : acquired_in_order [] n hw [] hw
| acquired_next (k : ResourceKind) (f : AcquireFn)
    (p : list (ResourceKind * AcquireFn)) (n : nat) (hw hw' hw'' : HW)
    (tok : ReleaseToken) (rs : list Resource) :
    f hw = (inr tok, hw') ->
    acquired_in_order p (S n) hw' rs hw'' ->
    acquired_in_order ((k, f) :: p) n hw (mkResource k tok n :: rs) hw''.

(** Modelled from the spec: a module's registered lifecycle callback,
    invoked with Load or Unload; [Some e] is its failure. *)
Definition Callback : Type := Event -> HW -> option E * HW.

(** Modelled from the spec: a Module (section 3); its unique name is the
    key under which the registrar keeps it. *)
Record Module : Type := mkModule {
  status : Status;
  callback : Callback
}.

(** Modelled from the spec: [register] of section 4.1. *)
Definition register (name : string) (cb : Callback)
    (mods : gmap string Module) : result unit * gmap string Module :=
  match mods !! name with
  | Some _ => (Err unit DuplicateName, mods)
  | None => (Ok unit tt, <[name := mkModule Unloaded cb]> mods)
  end.

(** Modelled from the spec: an entry of the DeviceRegistry (section 4.4):
    the device and the module it is attached through, once a driver of
    that module has claimed it. *)
Record Entry : Type := mkEntry {
  device : Device;
  owner : option string
}.

(** Modelled from the spec: the guard of Unload: the entry is a device
    of module [name] in state Attached. *)
Definition attached_through (name : string) (e : Entry) : bool :=
  match owner e, state (device e) with
  | Some n, Attached => bool_decide (n = name)
  | _, _ => false
  end.

(** Modelled from the spec: the iteration over a module's devices that
    the registry exposes to the [ModuleBusy] guard. *)
Definition module_busy (name : string) (devs : gmap Z Entry) : bool :=
  existsb (fun ie => attached_through name (snd ie)) (map_to_list devs).

(** Modelled from the spec: [dispatch] of section 4.1. *)
Definition dispatch (name : string) (ev : Event)
    (mods : gmap string Module) (devs : gmap Z Entry) (hw : HW)
    : result unit * gmap string Module * HW :=
  match mods !! name with
  | None => (Err unit UnknownModule, mods, hw)
  | Some m =>
      match ev with
      | Load =>
          match callback m Load hw with
          | (None, hw') =>
              (Ok unit tt, <[name := mkModule Loaded (callback m)]> mods, hw')
          | (Some e, hw') => (Err unit (External e), mods, hw')
          end
      | Unload =>
          if module_busy name devs then (Err unit ModuleBusy, mods, hw)
          else
            (Ok unit tt, <[name := mkModule Unloaded (callback m)]> mods,
             snd (callback m Unload hw))
      | OtherEvent _ => (Err unit UnsupportedEvent, mods, hw)
      end
  end.

(** Modelled from the spec: the Device that [onEnumerate] creates
    (4.4): Unprobed, nothing acquired yet. *)
Definition fresh (id : Z) : Device := mkDevice id Unprobed [].

(** Modelled from the spec: the Probe rows of the table in 4.2, for a
    driver whose supported set, with its match scores, is [supports];
    Probe reads the identity only. *)
Definition probe (supports : Z -> option Z) (d : Device)
    : result Z * Device :=
  match state d with
  | Unprobed =>
      match supports (identity d) with
      | Some score => (Ok Z score, mkDevice (identity d) Probed (ledger d))
      | None => (Err Z NotSupported, d)
      end
  | _ => (Err Z InvalidTransition, d)
  end.

(** Modelled from the spec: the Detach row of 4.2: [releaseAll] on the
    ledger; on success the device is Detached, on a hard failure the
    detach is refused and the device remains Attached, with the entries
    [releaseAll] left (4.3). *)
Definition detach (d : Device) (hw : HW) : result unit * Device * HW :=
  match state d with
  | Attached =>
      match releaseAll (ledger d) hw with
      | (None, l, hw') => (Ok unit tt, mkDevice (identity d) Detached l, hw')
      | (Some e, l, hw') =>
          (Err unit (DetachRefused e), mkDevice (identity d) Attached l, hw')
      end
  | _ => (Err unit InvalidTransition, d, hw)
  end.

(** Modelled from the spec: the Shutdown row of 4.2: from any state, best
    effort; every token is called and failures are not propagated. *)
Definition shutdown (d : Device) (hw : HW) : result unit * Device * HW :=
  (Ok unit tt, mkDevice (identity d) Detached [],
   release_each (rev (ledger d)) hw).

(** Modelled from the spec: the device records that can exist: the one
    [onEnumerate] creates, and what the transitions of 4.2 make of a
    record that can exist, whatever the driver and the hardware do. *)
Inductive reachable : Device -> Prop :=
| reach_fresh (id : Z) : reachable (fresh id)
| reach_probe (supports : Z -> option Z) (d : Device) :
    reachable d -> reachable (snd (probe supports d))
| reach_attach (plan : list (ResourceKind * AcquireFn)) (d : Device)
    (hw : HW) :
    reachable d -> reachable (snd (fst (attach plan d hw)))
| reach_detach (d : Device) (hw : HW) :
    reachable d -> reachable (snd (fst (detach d hw)))
| reach_shutdown (d : Device) (hw : HW) :
    reachable d -> reachable (snd (fst (shutdown d hw))).

End Engine.

Arguments Ok {E A} a.
Arguments Err {E A} e.

(** ** A collaborator to run the model on *)

(** The state of this hardware collaborator is the log of the calls made
    to it. *)
Definition call_log : Type := list string.

Definition logged_release (what : string) : @ReleaseToken call_log string :=
  fun log => (None, log ++ ["release " +:+ what]).

Definition busy_release (what : string) : @ReleaseToken call_log string :=
  fun log => (Some ("busy " +:+ what), log ++ ["release " +:+ what]).

Definition logged_acquire (what : string) : @AcquireFn call_log string :=
  fun log => (inr (logged_release what), log ++ ["acquire " +:+ what]).

Definition failing_acquire (what : string) : @AcquireFn call_log string :=
  fun log => (inl ("no " +:+ what), log ++ ["acquire " +:+ what]).

(** A driver that maps registers, then installs an interrupt handler,
    then arms a timer whose acquisition fails. *)
Definition failing_plan : list (ResourceKind * @AcquireFn call_log string) :=
  [(MemoryMap, logged_acquire "regs");
   (InterruptHandler, logged_acquire "irq");
   (Timer, failing_acquire "timer");
   (ChildDevice, logged_acquire "child")].

Definition working_plan : list (ResourceKind * @AcquireFn call_log string) :=
  [(MemoryMap, logged_acquire "regs");
   (InterruptHandler, logged_acquire "irq")].

(** A module callback that only records the event it was given. *)
Definition logged_callback : @Callback call_log string :=
  fun ev log =>
    (None,
     log ++ [match ev with
             | Load => "load" | Unload => "unload" | OtherEvent _ => "other"
             end]).

(** The registrar after [register "m"] and a successful Load. *)
Definition sample_mods : gmap string (@Module call_log string) :=
  (dispatch "m" Load (register "m" logged_callback ∅).2 ∅ []).1.2.

(** Device 7 attached by the working plan, and the same device once its
    ledger was released and it reached Detached. *)
Definition sample_device : @Device call_log string :=
  (attach working_plan (mkDevice 7 Probed []) []).1.2.

Definition sample_retired : @Device call_log string :=
  mkDevice 7 Detached (releaseAll (ledger sample_device) []).1.2.

(** A registry where module "m" has device 7 attached and device 8 only
    probed, next to an attached device of module "other"; and the same
    registry with device 7 detached. *)
Definition sample_attached : gmap Z (@Entry call_log string) :=
  <[7 := mkEntry sample_device (Some "m")]>
    (<[8 := mkEntry (mkDevice 8 Probed []) (Some "m")]>
       (<[9 := mkEntry (mkDevice 9 Attached []) (Some "other")]> ∅)).

Definition sample_detached : gmap Z (@Entry call_log string) :=
  <[7 := mkEntry sample_retired (Some "m")]> sample_attached.

(** A driver that supports device 7 only, with the default score. *)
Definition supports_seven (id : Z) : option Z :=
  if id =? 7 then Some (-20) else None.

(** ** Facts about the ledger *)
Section LedgerFacts.
Context {HW : Type} {E : Type}.
Implicit Types (l : @Ledger HW E) (hw : HW) (d : @Device HW E).
Implicit Types (r : @Resource HW E).

Lemma release_each_fold (visit : list (@Resource HW E)) hw :
  release_each visit hw = fold_left (fun h r => snd (release r h)) visit hw.
Proof.
  revert hw. induction visit as [|r rest IH]; intros hw; simpl; [reflexivity|].
  apply IH.
Qed.

(** When every token reports success the unconditional walk and the
    checked walk do the same calls. *)
Lemma released_in_order_each (v : list (@Resource HW E)) hw hw' :
  released_in_order v hw hw' -> release_each v hw = hw'.
Proof.
  induction 1 as [|r rest h h' h'' Hr _ IH]; simpl; [reflexivity|].
  rewrite Hr. exact IH.
Qed.

(** The walk splits its input into the entries released, all with
    success, and the entries kept, headed by the one that failed. *)
Lemma release_walk_split (visit : list (@Resource HW E)) hw :
  exists done_ rest hw1,
    visit = done_ ++ rest /\
    released_in_order done_ hw hw1 /\
    ((rest = [] /\ release_walk visit hw = (None, [], hw1)) \/
     (exists r later e hw2,
        rest = r :: later /\
        release r hw1 = (Some e, hw2) /\
        release_walk visit hw = (Some e, rest, hw2))).
Proof.
  revert hw. induction visit as [|r earlier IH]; intros hw.
  - exists [], [], hw. repeat split; [constructor | left; split; reflexivity].
  - simpl. destruct (release r hw) as [[e|] hw'] eqn:Hr.
    + exists [], (r :: earlier), hw. repeat split; [constructor|].
      right. exists r, earlier, e, hw'. repeat split; assumption.
    + destruct (IH hw') as (done_ & rest & hw1 & Hsplit & Hok & Hcases).
      exists (r :: done_), rest, hw1. split; [simpl; congruence|].
      split; [econstructor; eassumption | exact Hcases].
Qed.

Lemma acquire_plan_app (p1 p2 : list (ResourceKind * @AcquireFn HW E)) l hw :
  acquire_plan (p1 ++ p2) l hw =
    match acquire_plan p1 l hw with
    | (None, l', hw') => acquire_plan p2 l' hw'
    | (Some k, l', hw') => (Some k, l', hw')
    end.
Proof.
  revert l hw. induction p1 as [|[k f] p1 IH]; intros l hw; simpl.
  - reflexivity.
  - destruct (acquire k f l hw) as [[[e|r] l'] hw']; [reflexivity | apply IH].
Qed.

(** The plan is acquired in full exactly when each step succeeds in
    turn; the ledger then grows by one record per step. *)
Lemma acquire_plan_ok_iff (p : list (ResourceKind * @AcquireFn HW E)) l hw
    l' hw' :
  acquire_plan p l hw = (None, l', hw') <->
  exists new,
    l' = l ++ new /\ acquired_in_order p (length l) hw new hw'.
Proof.
  revert l hw. induction p as [|[k f] p IH]; intros l hw; simpl.
  - split.
    + intros [= <- <-]. exists []. rewrite app_nil_r. split; constructor.
    + intros (new & -> & Hacq). inversion Hacq; subst.
      rewrite app_nil_r. reflexivity.
  - unfold acquire. split.
    + destruct (f hw) as [[e|tok] hw1] eqn:Hf; [discriminate|].
      intros Hrest. apply IH in Hrest. destruct Hrest as (new & -> & Hacq).
      exists (mkResource k tok (length l) :: new).
      rewrite <- app_assoc. split; [reflexivity|].
      rewrite length_app, Nat.add_1_r in Hacq.
      econstructor; eassumption.
    + intros (new & -> & Hacq).
      inversion Hacq as [|? ? ? ? ? hw1 ? tok rs Hf Hrs]; subst.
      rewrite Hf. apply IH. exists rs.
      rewrite <- app_assoc, length_app, Nat.add_1_r.
      split; [reflexivity | exact Hrs].
Qed.

(** One record per step, with the step's kind and consecutive indices. *)
Lemma acquired_in_order_shape (p : list (ResourceKind * @AcquireFn HW E))
    (n : nat) hw (rs : list (@Resource HW E)) hw' :
  acquired_in_order p n hw rs hw' ->
  map kind rs = map fst p /\ map order rs = seq n (length p).
Proof.
  induction 1 as [|k f p n h h' h'' tok rs _ _ [IHk IHo]]; simpl.
  - split; reflexivity.
  - rewrite IHk, IHo. split; reflexivity.
Qed.

(** The skeleton's attach routine declares no acquisition: with the empty
    plan Attach always succeeds, acquires nothing and leaves the hardware
    as it is. *)
Lemma attach_empty_plan d hw :
  state d = Probed ->
  ledger d = [] ->
  attach [] d hw = (Ok tt, mkDevice (identity d) Attached [], hw).
Proof. intros Hs Hl. unfold attach. rewrite Hs, Hl. reflexivity. Qed.

(** C1. Attach on a Probed device, whose ledger is empty, with a plan of
    N steps: if the acquisitions of the steps [pre] succeed and the next
    one, of kind [k], fails, then the release tokens of exactly the
    resources acquired for [pre] (fewer than N, one per step) are called,
    last-acquired first, the device is back in Unprobed with an empty
    ledger, and the caller gets the single error [AcquisitionFailed k]. *)
Theorem attach_failure_rolls_back d hw
    (plan pre post : list (ResourceKind * @AcquireFn HW E))
    (k : ResourceKind) (f : @AcquireFn HW E)
    (acquired : @Ledger HW E) (hw1 hw2 : HW) (e : E) :
  state d = Probed ->
  ledger d = [] ->
  plan = pre ++ (k, f) :: post ->
  acquired_in_order pre 0 hw acquired hw1 ->
  f hw1 = (inl e, hw2) ->
  attach plan d hw =
    (Err (AcquisitionFailed k),
     mkDevice (identity d) Unprobed [],
     fold_left (fun h r => snd (release r h)) (rev acquired) hw2)
  /\ map kind acquired = map fst pre
  /\ (length acquired < length plan)%nat.
Proof.
  intros Hs Hempty Hplan Hpre Hf.
  destruct (acquired_in_order_shape _ _ _ _ _ Hpre) as [Hk _].
  assert (Hrun : acquire_plan pre [] hw = (None, acquired, hw1)).
  { apply acquire_plan_ok_iff. exists acquired. split; [reflexivity|exact Hpre]. }
  split; [|split; [exact Hk|]].
  - unfold attach. rewrite Hs, Hempty, Hplan, acquire_plan_app, Hrun.
    simpl. unfold acquire. rewrite Hf.
    rewrite release_each_fold. reflexivity.
  - rewrite Hplan, length_app. simpl.
    rewrite <- (length_map kind acquired), Hk, length_map. lia.
Qed.

(** C3. For every ledger, [releaseAll] calls the release tokens from the
    last-acquired entry towards the first; the entries [gone] it removes
    are exactly those whose call reported success; at the first hard
    failure it stops, and the failed entry [r] and all entries acquired
    before it are still in the ledger. *)
Theorem releaseAll_reverse_walk l hw :
  exists (kept gone : @Ledger HW E) (hw1 : HW),
    l = kept ++ gone /\
    released_in_order (rev gone) hw hw1 /\
    ((kept = [] /\ releaseAll l hw = (None, [], hw1)) \/
     (exists earlier r e hw2,
        kept = earlier ++ [r] /\
        release r hw1 = (Some e, hw2) /\
        releaseAll l hw = (Some e, earlier ++ [r], hw2))).
Proof.
  destruct (release_walk_split (rev l) hw)
    as (done_ & rest & hw1 & Hsplit & Hok & Hcases).
  exists (rev rest), (rev done_), hw1.
  split; [|split].
  - rewrite <- rev_app_distr, <- Hsplit. symmetry. apply rev_involutive.
  - rewrite rev_involutive. exact Hok.
  - unfold releaseAll.
    destruct Hcases as [[-> ->] | (r & later & e & hw2 & -> & Hr & ->)].
    + left. split; reflexivity.
    + right. exists (rev later), r, e, hw2. simpl. repeat split. exact Hr.
Qed.

(** What a successful Attach acquired, [releaseAll] gives back in the
    reverse order when every token reports success. *)
Lemma attach_then_releaseAll d hw
    (plan : list (ResourceKind * @AcquireFn HW E))
    (d' : @Device HW E) (hw' hwd hwe : HW) :
  state d = Probed ->
  ledger d = [] ->
  attach plan d hw = (Ok tt, d', hw') ->
  released_in_order (rev (ledger d')) hwd hwe ->
  acquired_in_order plan 0 hw (ledger d') hw' /\
  releaseAll (ledger d') hwd = (None, [], hwe).
Proof.
  intros Hs Hempty Hattach Hrel. unfold attach in Hattach.
  rewrite Hs, Hempty in Hattach.
  destruct (acquire_plan plan [] hw) as [[[k|] l] hwa] eqn:Hacq; [discriminate|].
  injection Hattach as <- <-.
  apply acquire_plan_ok_iff in Hacq. destruct Hacq as (new & -> & Hnew).
  simpl in *. split; [exact Hnew|].
  unfold releaseAll.
  destruct (release_walk_split (rev new) hwd)
    as (done_ & rest & hw1 & Hsplit & Hok
        & [[-> Hw] | (r & later & e & hwf & -> & Hr & Hw)]); rewrite Hw.
  - rewrite app_nil_r in Hsplit. subst done_.
    apply released_in_order_each in Hok. apply released_in_order_each in Hrel.
    simpl. congruence.
  - exfalso. rewrite Hsplit in Hrel. clear - Hok Hrel Hr.
    induction Hok as [|r0 rest0 h h' h'' Hr0 _ IH]; simpl in Hrel.
    + inversion Hrel; subst. congruence.
    + inversion Hrel; subst. apply IH; [|assumption].
      congruence.
Qed.

End LedgerFacts.

(** ** Facts about the registrar *)
Section RegistrarFacts.
Context {HW : Type} {E : Type}.

Lemma module_busy_spec (name : string) (devs : gmap Z (@Entry HW E)) :
  module_busy name devs = true <->
  exists (id : Z) (e : @Entry HW E),
    devs !! id = Some e /\ owner e = Some name /\ state (device e) = Attached.
Proof.
  unfold module_busy. rewrite existsb_exists. split.
  - intros [[id e] [Hin Hat]]. exists id, e.
    apply list_elem_of_In, elem_of_map_to_list in Hin.
    split; [exact Hin|]. simpl in Hat. unfold attached_through in Hat.
    destruct (owner e) as [n|]; [|discriminate].
    destruct (state (device e)); try discriminate.
    apply bool_decide_eq_true in Hat. subst n. split; reflexivity.
  - intros (id & e & Hlook & Hown & Hst). exists (id, e). split.
    + apply list_elem_of_In, elem_of_map_to_list. exact Hlook.
    + simpl. unfold attached_through. rewrite Hown, Hst.
      apply bool_decide_eq_true. reflexivity.
Qed.

(** C4. Unload of a registered module: while a device attached through
    the module is in state Attached the dispatch fails with [ModuleBusy]
    and changes neither the registrar (so not the module's status) nor
    the hardware; once no device of the module is in state Attached any
    more (those that were have reached Detached; a device that is only
    Probed or Unprobed does not count) the same dispatch succeeds and the
    module is Unloaded. *)
Theorem unload_busy_until_detached (name : string) (m : @Module HW E)
    (mods : gmap string (@Module HW E)) (hw : HW) :
  mods !! name = Some m ->
  (forall devs : gmap Z (@Entry HW E),
      (exists (id : Z) (e : @Entry HW E),
          devs !! id = Some e /\ owner e = Some name /\
          state (device e) = Attached) ->
      dispatch name Unload mods devs hw = (Err ModuleBusy, mods, hw)) /\
  (forall devs : gmap Z (@Entry HW E),
      (forall (id : Z) (e : @Entry HW E),
          devs !! id = Some e -> owner e = Some name ->
          state (device e) <> Attached) ->
      dispatch name Unload mods devs hw =
        (Ok tt, <[name := mkModule Unloaded (callback m)]> mods,
         snd (callback m Unload hw))).
Proof.
  intros Hm. split; intros devs Hdevs; unfold dispatch; rewrite Hm.
  - apply module_busy_spec in Hdevs. rewrite Hdevs. reflexivity.
  - destruct (module_busy name devs) eqn:Hbusy; [|reflexivity].
    apply module_busy_spec in Hbusy.
    destruct Hbusy as (id & e & Hlook & Hown & Hst).
    destruct (Hdevs id e Hlook Hown Hst).
Qed.

End RegistrarFacts.

(** ** Facts about the state machine *)
Section LifecycleFacts.
Context {HW : Type} {E : Type}.
Implicit Types (l : @Ledger HW E) (hw : HW) (d : @Device HW E).

(** Only an Attached device holds resources: the invariant of section 3,
    kept by every transition. *)
Lemma reachable_ledger d :
  reachable d -> state d <> Attached -> ledger d = [].
Proof.
  induction 1 as [id | supports d _ IH | plan d hw _ IH | d hw _ IH
                  | d hw _ IH].
  - reflexivity.
  - unfold probe. case_eq (state d); intros Hs;
      try (simpl; intros Hne; apply IH; congruence).
    destruct (supports (identity d)); simpl; intros Hne; apply IH; congruence.
  - unfold attach. case_eq (state d); intros Hs;
      try (simpl; intros Hne; apply IH; congruence).
    destruct (acquire_plan plan (ledger d) hw) as [[[k|] l] hw'];
      simpl; intros Hne; [reflexivity | congruence].
  - unfold detach. case_eq (state d); intros Hs;
      try (simpl; intros Hne; apply IH; congruence).
    unfold releaseAll.
    destruct (release_walk_split (rev (ledger d)) hw)
      as (done_ & rest & hw1 & _ & _
          & [[-> ->] | (r & later & e & hw2 & _ & _ & ->)]);
      simpl; intros Hne; [reflexivity | congruence].
  - reflexivity.
Qed.

(** A walk in which every token reports success is the one [releaseAll]
    does, and empties the ledger. *)
Lemma releaseAll_all_released l hw hw' :
  released_in_order (rev l) hw hw' -> releaseAll l hw = (None, [], hw').
Proof.
  intros Hrel. unfold releaseAll.
  destruct (release_walk_split (rev l) hw)
    as (done_ & rest & hw1 & Hsplit & Hok
        & [[-> Hw] | (r & later & e & hwf & -> & Hr & Hw)]); rewrite Hw.
  - rewrite app_nil_r in Hsplit. subst done_.
    apply released_in_order_each in Hok. apply released_in_order_each in Hrel.
    simpl. congruence.
  - exfalso. rewrite Hsplit in Hrel. clear - Hok Hrel Hr.
    induction Hok as [|r0 rest0 h h' h'' Hr0 _ IH]; simpl in Hrel.
    + inversion Hrel; subst. congruence.
    + inversion Hrel; subst. apply IH; [|assumption]. congruence.
Qed.

(** C2. Probe, then Attach, then Detach on one device record that can
    exist.  Whenever the three succeed, the ledger was empty when Attach
    began, Attach put into it exactly one record per acquisition of the
    plan, in order, Detach called the release token of each of these
    records, last-acquired first, and the ledger is empty again in state
    Detached.  And the three do succeed, with these results, whenever the
    driver supports the identity, every acquisition of the plan succeeds
    and every release succeeds. *)
Theorem probe_attach_detach_pairs (supports : Z -> option Z)
    (plan : list (ResourceKind * @AcquireFn HW E)) d (hw hwd : HW) :
  reachable d ->
  (forall (score : Z) (d1 d2 d3 : @Device HW E) (hw2 hw3 : HW),
      probe supports d = (Ok score, d1) ->
      attach plan d1 hw = (Ok tt, d2, hw2) ->
      detach d2 hwd = (Ok tt, d3, hw3) ->
      ledger d1 = [] /\
      acquired_in_order plan 0 hw (ledger d2) hw2 /\
      released_in_order (rev (ledger d2)) hwd hw3 /\
      d3 = mkDevice (identity d) Detached []) /\
  (forall (score : Z) (l : @Ledger HW E) (hw2 hw3 : HW),
      state d = Unprobed ->
      supports (identity d) = Some score ->
      acquired_in_order plan 0 hw l hw2 ->
      released_in_order (rev l) hwd hw3 ->
      probe supports d = (Ok score, mkDevice (identity d) Probed []) /\
      attach plan (mkDevice (identity d) Probed []) hw =
        (Ok tt, mkDevice (identity d) Attached l, hw2) /\
      detach (mkDevice (identity d) Attached l) hwd =
        (Ok tt, mkDevice (identity d) Detached [], hw3)).
Proof.
  intros Hreach. split.
  - intros score d1 d2 d3 hw2 hw3 Hprobe Hattach Hdetach.
    unfold probe in Hprobe.
    destruct (state d) eqn:Hs; try discriminate.
    destruct (supports (identity d)); [|discriminate].
    injection Hprobe as _ <-.
    assert (Hempty : ledger d = [])
      by (apply reachable_ledger; [exact Hreach | congruence]).
    unfold attach in Hattach. simpl in Hattach. rewrite Hempty in Hattach.
    destruct (acquire_plan plan [] hw) as [[[k|] l] hwa] eqn:Hacq;
      [discriminate|].
    injection Hattach as <- <-.
    apply acquire_plan_ok_iff in Hacq. destruct Hacq as (new & -> & Hnew).
    unfold detach, releaseAll in Hdetach. simpl in *.
    destruct (release_walk_split (rev new) hwd)
      as (done_ & rest & hw1 & Hsplit & Hok
          & [[-> Hw] | (r & later & e & hwf & _ & _ & Hw)]);
      rewrite Hw in Hdetach; [|discriminate].
    injection Hdetach as <- <-.
    rewrite app_nil_r in Hsplit. subst done_.
    repeat split; assumption.
  - intros score l hw2 hw3 Hs Hsup Hacq Hrel.
    assert (Hempty : ledger d = [])
      by (apply reachable_ledger; [exact Hreach | congruence]).
    split; [|split].
    + unfold probe. rewrite Hs, Hsup, Hempty. reflexivity.
    + unfold attach. simpl.
      assert (Hrun : acquire_plan plan [] hw = (None, l, hw2)).
      { apply acquire_plan_ok_iff. exists l. split; [reflexivity | exact Hacq]. }
      rewrite Hrun. reflexivity.
    + unfold detach. simpl.
      rewrite (releaseAll_all_released _ _ _ Hrel). reflexivity.
Qed.

End LifecycleFacts.

(** ** The model on the sample collaborator *)

Lemma attach_failure_rolls_back_witness :
  attach failing_plan (mkDevice 7 Probed []) [] =
    (Err (AcquisitionFailed Timer), mkDevice 7 Unprobed [],
     ["acquire regs"; "acquire irq"; "acquire timer";
      "release irq"; "release regs"]).
Proof.
  refine (proj1 (attach_failure_rolls_back
    (mkDevice 7 Probed []) [] failing_plan
    [(MemoryMap, logged_acquire "regs"); (InterruptHandler, logged_acquire "irq")]
    [(ChildDevice, logged_acquire "child")]
    Timer (failing_acquire "timer")
    [mkResource MemoryMap (logged_release "regs") 0;
     mkResource InterruptHandler (logged_release "irq") 1]
    ["acquire regs"; "acquire irq"]
    ["acquire regs"; "acquire irq"; "acquire timer"]
    "no timer" _ _ _ _ _)).
  - reflexivity.
  - reflexivity.
  - reflexivity.
  - repeat econstructor.
  - reflexivity.
Defined.

(** A ledger whose middle entry is busy: the walk releases the timer,
    stops at the interrupt handler and keeps it and the register map. *)
Example releaseAll_stops_at_busy :
  releaseAll
    [mkResource MemoryMap (logged_release "regs") 0;
     mkResource InterruptHandler (busy_release "irq") 1;
     mkResource Timer (logged_release "timer") 2] [] =
    (Some "busy irq",
     [mkResource MemoryMap (logged_release "regs") 0;
      mkResource InterruptHandler (busy_release "irq") 1],
     ["release timer"; "release irq"]).
Proof. reflexivity. Qed.

Lemma probe_attach_detach_pairs_witness :
  probe supports_seven (fresh 7) =
    (Ok (-20), mkDevice 7 Probed [] : @Device call_log string) /\
  attach working_plan (mkDevice 7 Probed []) [] =
    (Ok tt,
     mkDevice 7 Attached
       [mkResource MemoryMap (logged_release "regs") 0;
        mkResource InterruptHandler (logged_release "irq") 1],
     ["acquire regs"; "acquire irq"]) /\
  detach
    (mkDevice 7 Attached
       [mkResource MemoryMap (logged_release "regs") 0;
        mkResource InterruptHandler (logged_release "irq") 1])
    ["acquire regs"; "acquire irq"] =
    (Ok tt, mkDevice 7 Detached [],
     ["acquire regs"; "acquire irq"; "release irq"; "release regs"]).
Proof.
  refine (proj2 (probe_attach_detach_pairs supports_seven working_plan
                   (fresh 7) [] ["acquire regs"; "acquire irq"]
                   (reach_fresh 7))
            (-20)
            [mkResource MemoryMap (logged_release "regs") 0;
             mkResource InterruptHandler (logged_release "irq") 1]
            ["acquire regs"; "acquire irq"]
            ["acquire regs"; "acquire irq"; "release irq"; "release regs"]
            _ _ _ _).
  - reflexivity.
  - reflexivity.
  - repeat econstructor.
  - repeat econstructor.
Defined.

Lemma sample_detached_lookup (id : Z) (e : @Entry call_log string) :
  sample_detached !! id = Some e ->
  owner e = Some ("m" : string) ->
  state (device e) <> Attached.
Proof.
  unfold sample_detached, sample_attached.
  intros [[<- <-] | [Hne Hrest]]%lookup_insert_Some Hown; [discriminate|].
  apply lookup_insert_Some in Hrest.
  destruct Hrest as [[Heq _] | [_ Hrest]]; [contradiction|].
  apply lookup_insert_Some in Hrest.
  destruct Hrest as [[_ <-] | [_ Hrest]]; [discriminate|].
  apply lookup_insert_Some in Hrest.
  destruct Hrest as [[_ <-] | [_ Hrest]]; [discriminate|].
  rewrite lookup_empty in Hrest. discriminate.
Qed.

Lemma unload_busy_until_detached_witness :
  dispatch "m" Unload sample_mods sample_attached [] =
    (Err ModuleBusy, sample_mods, []) /\
  dispatch "m" Unload sample_mods sample_detached [] =
    (Ok tt, <[("m" : string) := mkModule Unloaded logged_callback]> sample_mods,
     ["unload"]).
Proof.
  destruct (unload_busy_until_detached "m"
              (mkModule Loaded logged_callback) sample_mods [] eq_refl)
    as [Hbusy Hidle].
  split.
  - apply Hbusy. exists 7, (mkEntry sample_device (Some "m")).
    split; [reflexivity|]. split; reflexivity.
  - apply Hidle. exact sample_detached_lookup.
Defined.

End Core.

(** * Part III: properties of the C sources *)

Import HelloWorld MyDriver DriverSim Held.

(** ** The module event handler *)

(** X1. On Load the handler prints its greeting and on Unload its
    farewell, one line each after the calls made before, and both times it
    reports success. *)
Lemma hello_world_load_events (hdr : SysHeaders) (mod_ : module_t)
    (arg : void_ptr) (tr : trace) :
  hello_world_load mod_ MOD_LOAD arg tr =
    (0, tr ++ [Printf ("Hello World! Kernel module loaded." +:+ nl)]) /\
  hello_world_load mod_ MOD_UNLOAD arg tr =
    (0, tr ++ [Printf ("Goodbye World! Kernel module unloaded." +:+ nl)]).
Proof.
  unfold hello_world_load. rewrite !Z.eqb_refl.
  destruct (Z.eqb_spec MOD_UNLOAD MOD_LOAD) as [Heq|_].
  - destruct (mod_cases_distinct (eq_sym Heq)).
  - split; reflexivity.
Qed.

(** C5. For every event kind other than Load and Unload the module event
    handler returns [EOPNOTSUPP], makes no call and hands back the state it
    was given as it is. *)
Theorem hello_world_load_unsupported (hdr : SysHeaders) (mod_ : module_t)
    (cmd : Z) (arg : void_ptr) (tr : trace) :
  cmd <> MOD_LOAD ->
  cmd <> MOD_UNLOAD ->
  hello_world_load mod_ cmd arg tr = (EOPNOTSUPP, tr).
Proof.
  intros Hload Hunload. unfold hello_world_load.
  destruct (Z.eqb_spec cmd MOD_LOAD) as [|_]; [contradiction|].
  destruct (Z.eqb_spec cmd MOD_UNLOAD) as [|_]; [contradiction|].
  reflexivity.
Qed.

Lemma hello_world_load_unsupported_witness :
  @hello_world_load freebsd_headers 0 2 0 [] = (45, []).
Proof.
  apply (hello_world_load_unsupported freebsd_headers 0 2 0 []); discriminate.
Defined.

(** ** The driver skeleton *)

(** Each routine makes exactly one call, a [device_printf]. *)
Lemma mydriver_probe_accepts_all (hdr : SysHeaders) (dev : device_t)
    (tr : trace) :
  mydriver_probe dev tr =
    (BUS_PROBE_DEFAULT, tr ++ [DevicePrintf dev ("Probing device..." +:+ nl)]).
Proof. reflexivity. Qed.


Lemma mydriver_attach_run (dev : device_t) (tr : trace) :
  mydriver_attach dev tr =
    (0, tr ++ [DevicePrintf dev
                 ("Attaching device and initializing resources..." +:+ nl)]).
Proof. reflexivity. Qed.

Lemma mydriver_detach_run (dev : device_t) (tr : trace) :
  mydriver_detach dev tr =
    (0, tr ++ [DevicePrintf dev ("Detaching device and cleaning up..." +:+ nl)]).
Proof. reflexivity. Qed.

Lemma calls_since_app (tr : trace) (calls : list call) :
  calls_since tr (tr ++ calls) = calls.
Proof. unfold calls_since. apply drop_app_length. Qed.

Lemma ledger_app (dev : device_t) (tr : trace) (calls : list call) :
  ledger_of dev (tr ++ calls) = fold_left (ledger_step dev) calls (ledger_of dev tr).
Proof. unfold ledger_of. apply fold_left_app. Qed.

(** Calls that neither allocate nor release for a device leave what it
    holds as it is. *)
Lemma quiet_calls_keep_held (dev : device_t) (calls : list call)
    (held : list resource) :
  acquired dev calls = [] ->
  released dev calls = [] ->
  fold_left (ledger_step dev) calls held = held.
Proof.
  revert held. induction calls as [|c calls IH]; intros held Ha Hr; simpl.
  - reflexivity.
  - simpl in Ha, Hr. apply app_eq_nil in Ha, Hr.
    destruct Ha as [Ha1 Ha], Hr as [Hr1 Hr].
    rewrite (IH _ Ha Hr).
    destruct c as [s | d s | d ty rid | d ty rid]; simpl in *;
      try reflexivity; destruct (d =? dev); try reflexivity; discriminate.
Qed.

Lemma quiet_calls_keep_ledger (dev : device_t) (tr : trace)
    (calls : list call) :
  acquired dev calls = [] ->
  released dev calls = [] ->
  ledger_of dev (tr ++ calls) = ledger_of dev tr.
Proof.
  intros Ha Hr. rewrite ledger_app. apply quiet_calls_keep_held; assumption.
Qed.

(** C7. The skeleton's probe acquires and releases nothing: its only call
    is a [device_printf], so every device's ledger is after Probe what it
    was before.  Detach, the other routine that is not Attach, adds no
    entry to a ledger, and Attach, the other routine that is not Detach,
    removes none. *)
Theorem skeleton_probe_acquires_nothing (hdr : SysHeaders)
    (dev other : device_t) (tr : trace) :
  acquired other (calls_since tr (output (mydriver_probe dev tr))) = [] /\
  released other (calls_since tr (output (mydriver_probe dev tr))) = [] /\
  ledger_of other (output (mydriver_probe dev tr)) = ledger_of other tr /\
  (forall r : resource,
      In r (ledger_of other (output (mydriver_detach dev tr))) ->
      In r (ledger_of other tr)) /\
  (forall r : resource,
      In r (ledger_of other tr) ->
      In r (ledger_of other (output (mydriver_attach dev tr)))).
Proof.
  rewrite mydriver_probe_accepts_all, mydriver_attach_run, mydriver_detach_run.
  cbv [output snd]. rewrite calls_since_app.
  rewrite !quiet_calls_keep_ledger by reflexivity.
  repeat split; auto.
Qed.

(** C8. For every device the skeleton's attach and detach routines return
    0; each makes one [device_printf] call and nothing else, so neither
    has a failure path. *)
Theorem skeleton_attach_detach_return_zero (dev : device_t) (tr : trace) :
  value (mydriver_attach dev tr) = 0 /\
  value (mydriver_detach dev tr) = 0 /\
  output (mydriver_attach dev tr) =
    tr ++ [DevicePrintf dev
             ("Attaching device and initializing resources..." +:+ nl)] /\
  output (mydriver_detach dev tr) =
    tr ++ [DevicePrintf dev ("Detaching device and cleaning up..." +:+ nl)].
Proof. repeat split. Qed.

(** ** The register simulation *)

Lemma uint_wrap_range (z : Z) : 0 <= uint_wrap z < 2 ^ 32.
Proof. unfold uint_wrap, UINT_BITS. apply Z.mod_pos_bound. lia. Qed.

(** Doubling modulo 2^32 is a left shift that drops bit 32. *)
Lemma uint_wrap_double_shift (a : Z) :
  uint_wrap (a * 2) = Z.land (Z.shiftl a 1) (Z.ones 32).
Proof.
  unfold uint_wrap, UINT_BITS. rewrite Z.land_ones by lia.
  rewrite Z.shiftl_mul_pow2 by lia. reflexivity.
Qed.

(** C9. For every 32-bit unsigned address [a], [read_register a] returns
    [a * 2] modulo 2^32: [2a] below 2^31 and [2a - 2^32] from there on; the
    call of [main], at address 0x10, returns 0x20, which [main] prints. *)
Theorem read_register_doubles (a : Z) (tr : trace) :
  0 <= a < 2 ^ 32 ->
  value (read_register a tr) = (a * 2) mod 2 ^ 32 /\
  value (read_register a tr) =
    (if a <? 2 ^ 31 then a * 2 else a * 2 - 2 ^ 32) /\
  value (read_register 16 tr) = 32 /\
  main tr =
    (0, tr ++ [Printf ("[driver] Reading register at address 0x10..." +:+ nl);
               Printf ("[driver] Value read: 0x20" +:+ nl)]).
Proof.
  intros Ha. split; [reflexivity|]. split; [|split; [reflexivity|]].
  - change (value (read_register a tr)) with ((a * 2) mod 2 ^ 32).
    destruct (Z.ltb_spec a (2 ^ 31)) as [Hlt|Hge].
    + apply Z.mod_small. lia.
    + symmetry. apply (Z.mod_unique_pos _ _ 1); lia.
  - unfold main, read_register, bind, printf, ret. simpl.
    rewrite <- app_assoc. reflexivity.
Qed.

Lemma read_register_doubles_witness :
  value (read_register 4294967295 []) = 4294967294.
Proof.
  refine (eq_trans
    (proj1 (read_register_doubles 4294967295 [] _)) eq_refl).
  lia.
Defined.

(** * Part IV: further properties of the sources *)

Import HexRead.

(** ** hello_world.c *)

(** X2. Provided [EOPNOTSUPP] is not 0, the handler reports success
    exactly on Load and Unload; whatever the event it keeps the calls made
    before, adds at most one, and none of them allocates or releases a bus
    resource. *)
Theorem hello_world_load_success_iff (hdr : SysHeaders) (mod_ : module_t)
    (cmd : Z) (arg : void_ptr) (tr : trace) :
  EOPNOTSUPP <> 0 ->
  (value (hello_world_load mod_ cmd arg tr) = 0 <->
   cmd = MOD_LOAD \/ cmd = MOD_UNLOAD) /\
  exists calls : list call,
    output (hello_world_load mod_ cmd arg tr) = tr ++ calls /\
    (length calls <= 1)%nat /\
    forall dev : device_t, acquired dev calls = [] /\ released dev calls = [].
Proof.
  intros Hne. unfold hello_world_load.
  destruct (Z.eqb_spec cmd MOD_LOAD) as [Hl|Hl].
  - split; [split; [intros _; left; exact Hl | reflexivity]|].
    eexists. split; [reflexivity|]. split; [simpl; lia | split; reflexivity].
  - destruct (Z.eqb_spec cmd MOD_UNLOAD) as [Hu|Hu].
    + split; [split; [intros _; right; exact Hu | reflexivity]|].
      eexists. split; [reflexivity|]. split; [simpl; lia | split; reflexivity].
    + split.
      * split; [intros H; destruct Hne; exact H | intros [H|H]; contradiction].
      * exists []. split; [symmetry; apply app_nil_r|].
        split; [simpl; lia | split; reflexivity].
Qed.

Lemma hello_world_load_success_iff_witness :
  value (@hello_world_load freebsd_headers 0 3 0 []) = 0 <-> 3 = 0 \/ 3 = 1.
Proof.
  refine (proj1 (hello_world_load_success_iff freebsd_headers 0 3 0 [] _)).
  discriminate.
Defined.

(** ** mydriver.c *)


(** ** driver_sim.c *)

(** X4. The value [read_register] returns is the address shifted left by
    one bit and cut to 32 bits: bit 0 is clear, bit [i + 1] is bit [i] of
    the address for [i] below 31, and no bit from 32 on is set. *)
Theorem read_register_shifts (a : Z) (tr : trace) :
  value (read_register a tr) = Z.land (Z.shiftl a 1) (Z.ones 32) /\
  Z.testbit (value (read_register a tr)) 0 = false /\
  (forall i : Z, 0 <= i < 31 ->
      Z.testbit (value (read_register a tr)) (i + 1) = Z.testbit a i) /\
  (forall i : Z, 32 <= i -> Z.testbit (value (read_register a tr)) i = false).
Proof.
  change (value (read_register a tr)) with (uint_wrap (a * 2)).
  rewrite uint_wrap_double_shift.
  split; [reflexivity|]. split; [|split].
  - rewrite Z.land_spec, Z.shiftl_spec_low by lia. reflexivity.
  - intros i Hi. rewrite Z.land_spec, Z.shiftl_spec by lia.
    rewrite Z.ones_spec_low by lia. rewrite andb_true_r.
    f_equal. lia.
  - intros i Hi. rewrite Z.land_spec, Z.ones_spec_high by lia.
    apply andb_false_r.
Qed.

(** X5. [read_register] cannot tell an address from the one 2^31 higher,
    and below 2^31 distinct addresses get distinct values. *)
Theorem read_register_aliases (a b : Z) (tr : trace) :
  0 <= a < 2 ^ 31 ->
  0 <= b < 2 ^ 31 ->
  value (read_register (a + 2 ^ 31) tr) = value (read_register a tr) /\
  (value (read_register a tr) = value (read_register b tr) -> a = b).
Proof.
  intros Ha Hb.
  change (value (read_register (a + 2 ^ 31) tr))
    with (((a + 2 ^ 31) * 2) mod 2 ^ 32).
  change (value (read_register a tr)) with ((a * 2) mod 2 ^ 32).
  change (value (read_register b tr)) with ((b * 2) mod 2 ^ 32).
  split.
  - replace ((a + 2 ^ 31) * 2) with (a * 2 + 1 * 2 ^ 32) by lia.
    apply Z.mod_add. lia.
  - rewrite !Z.mod_small by lia. lia.
Qed.

Lemma read_register_aliases_witness :
  value (read_register (16 + 2 ^ 31) []) = value (read_register 16 []).
Proof.
  refine (proj1 (read_register_aliases 16 16 [] _ _)); lia.
Defined.

Lemma hex_digit_value_digit (d : Z) :
  0 <= d < 16 -> hex_digit_value (hex_digit d) = d.
Proof.
  intros Hd.
  assert (Hcases : d = 0 \/ d = 1 \/ d = 2 \/ d = 3 \/ d = 4 \/ d = 5 \/ d = 6
                   \/ d = 7 \/ d = 8 \/ d = 9 \/ d = 10 \/ d = 11 \/ d = 12
                   \/ d = 13 \/ d = 14 \/ d = 15) by lia.
  repeat (destruct Hcases as [-> | Hcases]; [reflexivity|]).
  subst d. reflexivity.
Qed.

(** With enough digits allowed, the digits written for [n] in front of
    [acc] read back as [n] followed by [acc]. *)
Lemma hex_digits_read_back (fuel : nat) (n : Z) (acc : string) :
  0 <= n < 16 ^ Z.of_nat fuel ->
  hex_value_from 0 (hex_digits fuel n acc) = hex_value_from n acc.
Proof.
  revert n acc. induction fuel as [|fuel IH]; intros n acc Hn.
  - simpl in *. f_equal. lia.
  - assert (Hdigit : 0 <= n mod 16 < 16) by (apply Z.mod_pos_bound; lia).
    assert (Hsplit : n = n / 16 * 16 + n mod 16)
      by (rewrite Z.mul_comm; apply Z.div_mod; lia).
    simpl hex_digits. destruct (Z.eqb_spec (n / 16) 0) as [Hz|Hz].
    + simpl. rewrite hex_digit_value_digit by exact Hdigit.
      f_equal. lia.
    + rewrite IH.
      * simpl. rewrite hex_digit_value_digit by exact Hdigit.
        f_equal. lia.
      * rewrite Nat2Z.inj_succ, Z.pow_succ_r in Hn by lia.
        split; [apply Z.div_pos; lia | apply Z.div_lt_upper_bound; lia].
Qed.

Lemma string_length_append (s t : string) :
  String.length (s +:+ t) = (String.length s + String.length t)%nat.
Proof. induction s as [|c s IH]; simpl; [reflexivity | rewrite IH; reflexivity]. Qed.

Lemma string_append_cancel_r (s1 s2 t : string) :
  s1 +:+ t = s2 +:+ t -> s1 = s2.
Proof.
  revert s2. induction s1 as [|c1 s1 IH]; intros [|c2 s2] H; simpl in H.
  - reflexivity.
  - apply (f_equal String.length) in H.
    rewrite !string_length_append in H. simpl in H. lia.
  - apply (f_equal String.length) in H.
    rewrite !string_length_append in H. simpl in H. lia.
  - injection H as -> H. f_equal. apply IH. exact H.
Qed.

(** X6. The line [read_register] logs tells the address: the digits after
    [0x] read back as the address, so two 32-bit addresses that leave the
    same trace are the same address. *)
Theorem read_register_line_tells_address (a b : Z) (tr : trace) :
  0 <= a < 2 ^ 32 ->
  0 <= b < 2 ^ 32 ->
  output (read_register a tr) =
    tr ++ [Printf ("[driver] Reading register at address 0x" +:+ fmt_X a
                   +:+ "..." +:+ nl)] /\
  hex_value (fmt_X a) = a /\
  (output (read_register a tr) = output (read_register b tr) -> a = b).
Proof.
  intros Ha Hb.
  assert (Hback : forall n, 0 <= n < 2 ^ 32 -> hex_value (fmt_X n) = n).
  { intros n Hn. unfold hex_value, fmt_X.
    rewrite hex_digits_read_back; [reflexivity|].
    change (16 ^ Z.of_nat 8) with (2 ^ 32). exact Hn. }
  split; [reflexivity|]. split; [apply Hback; exact Ha|].
  unfold read_register, bind, printf, ret, output. cbv [snd].
  intros Hsame. apply app_inv_head in Hsame.
  injection Hsame as Hline. cbn [String.append] in Hline.
  assert (Hfmt : fmt_X a = fmt_X b).
  { repeat (injection Hline as Hline).
    change (fmt_X a +:+ "..." +:+ nl = fmt_X b +:+ "..." +:+ nl) in Hline.
    apply string_append_cancel_r in Hline. exact Hline. }
  rewrite <- (Hback a Ha), <- (Hback b Hb), Hfmt. reflexivity.
Qed.

Lemma read_register_line_tells_address_witness :
  hex_value (fmt_X 3735928559) = 3735928559.
Proof.
  refine (proj1 (proj2 (read_register_line_tells_address
                          3735928559 0 [] _ _))); lia.
Defined.

(** ** linkage_demo: foo.c and main.c *)

Import LinkageDemo.

(** With the flag set, [increment] adds one and prints the new count,
    unless the count is already [INT_MAX]. *)
Lemma increment_flag_set (g : globals) (tr : trace) :
  internal_flag g <> 0 ->
  INT_MIN <= shared_counter g ->
  (shared_counter g < INT_MAX ->
   increment g tr =
     (Some (mkGlobals (shared_counter g + 1) (internal_flag g)),
      tr ++ [counter_line (shared_counter g + 1)])) /\
  (INT_MAX <= shared_counter g -> increment g tr = (None, tr)).
Proof.
  intros Hflag Hmin. unfold increment, int_add.
  destruct (Z.eqb_spec (internal_flag g) 0) as [|_]; [contradiction|].
  cbv zeta. split; intros Hc.
  - replace (INT_MIN <=? shared_counter g + 1) with true
      by (symmetry; apply Z.leb_le; lia).
    replace (shared_counter g + 1 <=? INT_MAX) with true
      by (symmetry; apply Z.leb_le; lia).
    reflexivity.
  - replace (shared_counter g + 1 <=? INT_MAX) with false
      by (symmetry; apply Z.leb_gt; lia).
    rewrite andb_false_r. reflexivity.
Qed.

(** X7. What [increment] does to an [int] counter, case by case: with the
    flag clear it leaves both variables as they are and prints the count;
    with the flag set and the counter below [INT_MAX] it adds one, leaves
    the flag as it is and prints the new count; with the flag set and the
    counter at [INT_MAX] the addition overflows and the call is
    undefined.  A defined call appends exactly one line. *)
Theorem increment_effect (g : globals) (tr : trace) :
  INT_MIN <= shared_counter g <= INT_MAX ->
  (internal_flag g = 0 ->
   increment g tr = (Some g, tr ++ [counter_line (shared_counter g)])) /\
  (internal_flag g <> 0 ->
   shared_counter g < INT_MAX ->
   increment g tr =
     (Some (mkGlobals (shared_counter g + 1) (internal_flag g)),
      tr ++ [counter_line (shared_counter g + 1)])) /\
  (internal_flag g <> 0 ->
   shared_counter g = INT_MAX ->
   value (increment g tr) = None) /\
  (value (increment g tr) = None <->
   internal_flag g <> 0 /\ shared_counter g = INT_MAX).
Proof.
  intros Hrange.
  assert (Hclear : internal_flag g = 0 ->
            increment g tr = (Some g, tr ++ [counter_line (shared_counter g)])).
  { intros Hflag. destruct g as [c f]. simpl in Hflag. subst f. reflexivity. }
  split; [exact Hclear|].
  split; [intros Hflag Hlt;
          exact (proj1 (increment_flag_set g tr Hflag (proj1 Hrange)) Hlt)|].
  assert (Hover : internal_flag g <> 0 -> shared_counter g = INT_MAX ->
            value (increment g tr) = None).
  { intros Hflag Hmax.
    rewrite (proj2 (increment_flag_set g tr Hflag (proj1 Hrange)))
      by (rewrite Hmax; apply Z.le_refl).
    reflexivity. }
  split; [exact Hover|]. split.
  - intros Hnone. destruct (Z.eq_dec (internal_flag g) 0) as [Hflag|Hflag].
    + rewrite (Hclear Hflag) in Hnone. discriminate.
    + split; [exact Hflag|].
      destruct (Z.lt_ge_cases (shared_counter g) INT_MAX) as [Hlt|Hge]; [|lia].
      rewrite (proj1 (increment_flag_set g tr Hflag (proj1 Hrange)) Hlt)
        in Hnone.
      discriminate.
  - intros [Hflag Hmax]. exact (Hover Hflag Hmax).
Qed.

Lemma increment_effect_witness :
  increment (mkGlobals 41 1) [] = (Some (mkGlobals 42 1), [counter_line 42]).
Proof.
  refine (proj1 (proj2 (increment_effect (mkGlobals 41 1) [] _)) _ _).
  - simpl. unfold INT_MIN, INT_MAX. lia.
  - discriminate.
  - reflexivity.
Defined.

(** X8. With the flag set, [n] calls of [increment] in a row that stay
    within [int] add [n] to the counter and print the counts in between,
    one line each, in increasing order. *)
Theorem increment_times_counts (n : nat) (g : globals) (tr : trace) :
  internal_flag g <> 0 ->
  INT_MIN <= shared_counter g ->
  shared_counter g + Z.of_nat n <= INT_MAX ->
  increment_times n g tr =
    (Some (mkGlobals (shared_counter g + Z.of_nat n) (internal_flag g)),
     tr ++ map (fun i : nat => counter_line (shared_counter g + Z.of_nat i))
               (seq 1 n)).
Proof.
  revert g tr. induction n as [|n IH]; intros g tr Hflag Hmin Hmax.
  - simpl. rewrite Z.add_0_r, app_nil_r. destruct g; reflexivity.
  - destruct (increment_flag_set g tr Hflag Hmin) as [Hadd _].
    cbn [increment_times]. unfold bind at 1. rewrite Hadd by lia.
    rewrite IH; [|exact Hflag | simpl; lia | simpl; lia].
    cbn [shared_counter internal_flag].
    rewrite <- app_assoc.
    assert (Hlines :
      [counter_line (shared_counter g + 1)] ++
        map (fun i : nat => counter_line (shared_counter g + 1 + Z.of_nat i))
            (seq 1 n) =
      map (fun i : nat => counter_line (shared_counter g + Z.of_nat i))
          (seq 1 (S n))).
    { cbn [seq map app]. change (Z.of_nat 1) with 1. f_equal.
      rewrite <- (seq_shift n 1), map_map. apply map_ext. intros i.
      f_equal. lia. }
    rewrite Hlines. f_equal. f_equal. f_equal. lia.
Qed.

Lemma increment_times_counts_witness :
  increment_times 3 initial_globals [] =
    (Some (mkGlobals 3 1), [counter_line 1; counter_line 2; counter_line 3]).
Proof.
  refine (increment_times_counts 3 initial_globals [] _ _ _).
  - discriminate.
  - discriminate.
  - discriminate.
Defined.

(** X9. With the flag set, [main] of the linkage demo adds 12 to the
    counter (two increments around its own [+= 10]) and prints the counts
    after each increment; it is undefined when that leaves [int].  From
    the initializers it prints 1 and 12 and returns 0. *)
Theorem linkage_main_adds_twelve (g : globals) (tr : trace) :
  internal_flag g <> 0 ->
  INT_MIN <= shared_counter g ->
  (shared_counter g + 12 <= INT_MAX ->
   LinkageDemo.main g tr =
     (Some (0, mkGlobals (shared_counter g + 12) (internal_flag g)),
      tr ++ [counter_line (shared_counter g + 1);
             counter_line (shared_counter g + 12)])) /\
  (INT_MAX < shared_counter g + 12 ->
   value (LinkageDemo.main g tr) = None) /\
  LinkageDemo.main initial_globals tr =
    (Some (0, mkGlobals 12 1),
     tr ++ [Printf ("Counter: 1" +:+ nl); Printf ("Counter: 12" +:+ nl)]).
Proof.
  intros Hflag Hmin.
  destruct (increment_flag_set g tr Hflag Hmin) as [Hadd Hover].
  split; [|split].
  - intros Hfits. unfold LinkageDemo.main, bind at 1. rewrite Hadd by lia.
    cbn [shared_counter internal_flag]. unfold int_add. cbv zeta.
    replace (INT_MIN <=? shared_counter g + 1 + 10) with true
      by (symmetry; apply Z.leb_le; lia).
    replace (shared_counter g + 1 + 10 <=? INT_MAX) with true
      by (symmetry; apply Z.leb_le; lia).
    cbn [andb]. unfold bind.
    destruct (increment_flag_set
                (mkGlobals (shared_counter g + 1 + 10) (internal_flag g))
                (tr ++ [counter_line (shared_counter g + 1)]) Hflag)
      as [Hlast _]; [simpl; lia|].
    rewrite Hlast by (simpl; lia). cbn [shared_counter internal_flag ret].
    rewrite <- app_assoc.
    replace (shared_counter g + 1 + 10 + 1) with (shared_counter g + 12) by lia.
    reflexivity.
  - intros Hout. unfold LinkageDemo.main, bind at 1.
    destruct (Z.lt_ge_cases (shared_counter g) INT_MAX) as [Hlt|Hge];
      [|rewrite Hover by exact Hge; reflexivity].
    rewrite Hadd by exact Hlt. cbn [shared_counter internal_flag].
    unfold int_add. cbv zeta.
    destruct (Z.leb_spec (shared_counter g + 1 + 10) INT_MAX) as [Hle|Hgt];
      [|rewrite andb_false_r; reflexivity].
    replace (INT_MIN <=? shared_counter g + 1 + 10) with true
      by (symmetry; apply Z.leb_le; lia).
    cbn [andb]. unfold bind.
    destruct (increment_flag_set
                (mkGlobals (shared_counter g + 1 + 10) (internal_flag g))
                (tr ++ [counter_line (shared_counter g + 1)]) Hflag)
      as [_ Hlast]; [simpl; lia|].
    rewrite Hlast by (simpl; lia). reflexivity.
  - unfold LinkageDemo.main, bind, increment, int_add, printf, ret. simpl.
    rewrite <- app_assoc. reflexivity.
Qed.

Lemma linkage_main_adds_twelve_witness :
  LinkageDemo.main (mkGlobals 30 1) [] =
    (Some (0, mkGlobals 42 1), [counter_line 31; counter_line 42]).
Proof.
  refine (proj1 (linkage_main_adds_twelve (mkGlobals 30 1) [] _ _) _).
  - discriminate.
  - discriminate.
  - discriminate.
Defined.

(** ** null_terminator.c *)

Import NullTerminator.

(** X10. What [%s] reads from a [char] array: it is defined with result
    [s] exactly when the array is [s], free of NUL, followed by a NUL (and
    anything after it), and undefined exactly when the array holds no
    NUL. *)
Theorem read_string_until_nul (a : list ascii) :
  (forall s : list ascii,
      read_string a = Some s <->
      ~ In NUL s /\ exists rest : list ascii, a = s ++ NUL :: rest) /\
  (read_string a = None <-> ~ In NUL a).
Proof.
  induction a as [|c a [IHsome IHnone]].
  - split.
    + intros s. split; [discriminate|].
      intros [_ [rest Hrest]]. destruct s; discriminate.
    + split; [intros _ [] | reflexivity].
  - simpl. destruct (Ascii.eqb_spec c NUL) as [->|Hc].
    + split.
      * intros s. split.
        -- intros [= <-]. split; [intros []|]. exists a. reflexivity.
        -- intros [Hfree [rest Hrest]]. destruct s as [|c' s]; [reflexivity|].
           injection Hrest as <- _. destruct Hfree. left. reflexivity.
      * split; [discriminate|]. intros Hfree. destruct Hfree. left. reflexivity.
    + split.
      * intros s. split.
        -- destruct (read_string a) as [s'|] eqn:Hread; [|discriminate].
           intros [= <-]. destruct (proj1 (IHsome s') eq_refl) as [Hfree [rest ->]].
           split; [|exists rest; reflexivity].
           intros [Heq|Hin]; [congruence | exact (Hfree Hin)].
        -- intros [Hfree [rest Hrest]]. destruct s as [|c' s].
           ++ injection Hrest as Heq _. contradiction.
           ++ injection Hrest as <- ->.
              assert (Hs : read_string (s ++ NUL :: rest) = Some s).
              { apply IHsome. split; [|exists rest; reflexivity].
                intros Hin. apply Hfree. right. exact Hin. }
              rewrite Hs. reflexivity.
      * split.
        -- destruct (read_string a) as [s'|] eqn:Hread; [discriminate|].
           intros _ [Heq|Hin]; [congruence|].
           exact (proj1 IHnone eq_refl Hin).
        -- intros Hfree.
           assert (Ha : read_string a = None).
           { apply IHnone. intros Hin. apply Hfree. right. exact Hin. }
           rewrite Ha. reflexivity.
Qed.

Lemma read_string_unterminated (s : list ascii) :
  ~ In NUL s -> read_string s = None.
Proof.
  induction s as [|c s IH]; intros Hfree; simpl; [reflexivity|].
  destruct (Ascii.eqb_spec c NUL) as [->|_].
  - destruct Hfree. left. reflexivity.
  - rewrite IH; [reflexivity|]. intros Hin. apply Hfree. right. exact Hin.
Qed.

Lemma read_string_terminated (s rest : list ascii) :
  ~ In NUL s -> read_string (s ++ NUL :: rest) = Some s.
Proof.
  induction s as [|c s IH]; intros Hfree; simpl.
  - reflexivity.
  - destruct (Ascii.eqb_spec c NUL) as [->|_].
    + destruct Hfree. left. reflexivity.
    + rewrite IH; [reflexivity|]. intros Hin. apply Hfree. right. exact Hin.
Qed.

(** X11. A NUL-free array printed with [%s] is undefined, whatever it
    holds; the same characters with a NUL appended print as themselves.
    So [main], which prints the unterminated [broken] first, is
    undefined. *)
Theorem printf_s_needs_terminator (before after : string) (s : list ascii)
    (tr : trace) :
  ~ In NUL s ->
  printf_s before s after tr = None /\
  printf_s before (s ++ [NUL]) after tr =
    Some (tt, tr ++ [Printf (before +:+ String.string_of_list_ascii s
                             +:+ after)]) /\
  NullTerminator.main tr = None.
Proof.
  intros Hfree.
  unfold printf_s.
  rewrite (read_string_unterminated s Hfree).
  rewrite (read_string_terminated s [] Hfree). repeat split.
Qed.

Lemma printf_s_needs_terminator_witness :
  printf_s "Fixed string: " fixed nl [] =
    Some (tt, [Printf ("Fixed string: BSD!X" +:+ nl)]).
Proof.
  refine (proj1 (proj2 (printf_s_needs_terminator
                          "Fixed string: " nl broken [] _))).
  intros H. repeat (destruct H as [H|H]; [discriminate|]). exact H.
Defined.
